(** * tortoise/transactions.py: the per-task transaction stacks

    A shallow embedding of [get_connection], [push_transaction],
    [pop_transaction], [in_transaction] and [atomic], and the properties
    of the transaction-stack registry that follow from the code. *)

From Stdlib Require Import NArith DecimalString DecimalN.
From stdpp Require Import gmap strings list fin_maps.

Local Open Scope string_scope.
Local Open Scope list_scope.

(** ** Exceptions

    [ParamsError] carries the list that the f-string of lines 21-24
    interpolates after the fixed text "You are running with multiple
    databases, so you should specify connection_name: ".  [KeyError] is
    raised by a plain dict subscript or by [dict.pop] on a missing key,
    [IndexError] by [deque.pop] or [deque[-1]] on an empty deque and by
    a list subscript out of range, [RuntimeError] by
    [asyncio.current_task()] when no event loop is running.  [Failure]
    stands for any failure of user code or of a database driver. *)
Inductive exn : Type :=
  | ParamsError (names : list string)
  | KeyError (key : string)
  | IndexError
  | RuntimeError
  | Failure (kind content : string).

Inductive Result (A : Type) : Type :=
  | Ok (a : A)
  | Raise (e : exn).
Arguments Ok {A} a.
Arguments Raise {A} e.

(** Python's [str] on the non-negative integer that [id] returns. *)
Definition str (n : N) : string := NilEmpty.string_of_uint (N.to_uint n).

(** Truth value of an [Optional[str]]: [None] and the empty string are
    both false. *)
Definition truthy (connection_name : option string) : bool :=
  match connection_name with
  | None => false
  | Some EmptyString => false
  | Some (String _ _) => true
  end.

Definition str_of (connection_name : option string) : string :=
  match connection_name with
  | Some s => s
  | None => ""
  end.

Section Registry.

Context {Conn : Type}.

(** ** Process state

    [connections] is [Tortoise._connections], a dict in insertion order;
    [loop_running] tells whether an event loop is running in the thread;
    [current_loop] tells whether the thread has a current event loop for
    [asyncio.get_event_loop()] to return while none is running (a worker
    thread has none, nor has the main thread after [asyncio.run]);
    [current_task_id] is [id(asyncio.current_task())] while the loop runs
    (the [id] of [None] when no task is executing);
    [current_transaction_map] is the module-level defaultdict of deques.
    A deque is kept in Python order: [append] adds at the right end,
    [pop()] and [[-1]] work on the right end. *)
Record World : Type := mkWorld {
  connections : list (string * Conn);
  loop_running : bool;
  current_loop : bool;
  current_task_id : N;
  current_transaction_map : gmap string (list Conn)
}.

Definition set_map (m : gmap string (list Conn)) (w : World) : World :=
  {| connections := connections w;
     loop_running := loop_running w;
     current_loop := current_loop w;
     current_task_id := current_task_id w;
     current_transaction_map := m |}.

(** ** State and exception monad *)
Definition M (A : Type) : Type := World → Result A * World.

Definition ret {A : Type} (a : A) : M A := λ w, (Ok a, w).
Definition bind {A B : Type} (c : M A) (f : A → M B) : M B := λ w,
  match c w with
  | (Ok a, w') => f a w'
  | (Raise e, w') => (Raise e, w')
  end.

Notation "'let*' x := c 'in' k" := (bind c (λ x, k))
  (at level 10, x name, c at level 100, k at level 200).

Definition raise {A : Type} (e : exn) : M A := λ w, (Raise e, w).
Definition gets {A : Type} (f : World → A) : M A := λ w, (Ok (f w), w).
Definition modify_map (f : gmap string (list Conn) → gmap string (list Conn))
  : M unit := λ w, (Ok tt, set_map (f (current_transaction_map w)) w).

(** ** Dict, list and deque primitives *)

Definition keys (d : list (string * Conn)) : list string := map fst d.

Fixpoint assoc (name : string) (d : list (string * Conn)) : option Conn :=
  match d with
  | [] => None
  | (k, v) :: d' => if String.eqb k name then Some v else assoc name d'
  end.

(** [d[name]] on a plain dict. *)
Definition dict_getitem (d : list (string * Conn)) (name : string) : M Conn :=
  match assoc name d with
  | Some c => ret c
  | None => raise (KeyError name)
  end.

(** [l[0]] on a list. *)
Definition list_getitem0 (l : list string) : M string :=
  match l with
  | x :: _ => ret x
  | [] => raise IndexError
  end.

(** [key in current_transaction_map]. *)
Definition contains (key : string) : M bool :=
  gets (λ w, bool_decide (is_Some (current_transaction_map w !! key))).

(** [current_transaction_map[key]]: a missing key is first bound to a
    fresh empty deque ([defaultdict.__missing__]). *)
Definition defaultdict_getitem (key : string) : M (list Conn) := λ w,
  match current_transaction_map w !! key with
  | Some d => (Ok d, w)
  | None => (Ok [], set_map (<[key := []]> (current_transaction_map w)) w)
  end.

(** Truth value of a deque. *)
Definition nonempty (d : list Conn) : bool :=
  match d with
  | [] => false
  | _ :: _ => true
  end.

(** [d[-1]]. *)
Definition deque_last (d : list Conn) : M Conn :=
  match last d with
  | Some c => ret c
  | None => raise IndexError
  end.

(** [d.append(c)] and [d.pop()] on the deque stored under [key]; the
    deque is mutated in place, so the map entry changes with it. *)
Definition deque_append (key : string) (d : list Conn) (c : Conn) : M unit :=
  modify_map (<[key := d ++ [c]]>).

Definition deque_pop (key : string) (d : list Conn) : M Conn :=
  match last d with
  | Some c => let* _ := modify_map (<[key := removelast d]>) in ret c
  | None => raise IndexError
  end.

(** [current_transaction_map.pop(key)]. *)
Definition dict_pop (key : string) : M (list Conn) := λ w,
  match current_transaction_map w !! key with
  | Some d => (Ok d, set_map (delete key (current_transaction_map w)) w)
  | None => (Raise (KeyError key), w)
  end.

(** [asyncio.get_event_loop()]: the running loop, else the current loop
    of the thread; RuntimeError when the thread has neither.  The loop
    itself is only asked [is_running()], which [loop_running] answers. *)
Definition get_event_loop : M unit := λ w,
  if loop_running w || current_loop w then (Ok tt, w)
  else (Raise RuntimeError, w).

(** [id(asyncio.current_task())]: [current_task] needs a running loop. *)
Definition id_current_task : M N := λ w,
  if loop_running w then (Ok (current_task_id w), w) else (Raise RuntimeError, w).

(** ** The functions of transactions.py *)

(** Lines 17-37. *)
Definition get_connection (connection_name : option string) : M Conn :=
  let* conns := gets connections in
  if negb (truthy connection_name) && negb (length conns =? 1)%nat then
    raise (ParamsError (keys conns))
  else
    let* connection_name := (if negb (truthy connection_name)
                             then list_getitem0 (keys conns)
                             else ret (str_of connection_name)) in
    let* _ := get_event_loop in
    let* running := gets loop_running in
    if negb running then
      dict_getitem conns connection_name
    else
      let* tid := id_current_task in
      let key := connection_name +:+ str tid in
      let* present := contains key in
      let* hit := (if present
                   then let* d := defaultdict_getitem key in ret (nonempty d)
                   else ret false) in
      if hit then
        let* d := defaultdict_getitem key in
        deque_last d
      else
        dict_getitem conns connection_name.

(** Lines 40-42. *)
Definition push_transaction (connection_name : string) (connection : Conn)
  : M unit :=
  let* tid := id_current_task in
  let key := connection_name +:+ str tid in
  let* d := defaultdict_getitem key in
  deque_append key d connection.

(** Lines 45-51. *)
Definition pop_transaction (connection_name : string) : M unit :=
  let* tid := id_current_task in
  let key := connection_name +:+ str tid in
  let* d := defaultdict_getitem key in
  let* _ := deque_pop key d in
  let* d' := defaultdict_getitem key in
  if negb (nonempty d') then
    let* _ := dict_pop key in ret tt
  else
    ret tt.

(** ** Specification vocabulary *)

(** The key of lines 33, 41 and 46. *)
Definition key_of (connection_name : string) (tid : N) : string :=
  connection_name +:+ str tid.

(** The name lines 20-27 settle on: a supplied name that is true as a
    Python value, or the only registered name when none is supplied. *)
Definition resolves_to (conns : list (string * Conn))
    (connection_name : option string) (name : string) : Prop :=
  (truthy connection_name = true ∧ connection_name = Some name)
  ∨ (truthy connection_name = false ∧ keys conns = [name]).

(** What [Tortoise._connections[name]] evaluates to. *)
Definition base_connection (w : World) (name : string) : Result Conn :=
  match assoc name (connections w) with
  | Some c => Ok c
  | None => Raise (KeyError name)
  end.

(** The stack of the current task for [name]. *)
Definition stack_of (w : World) (name : string) : option (list Conn) :=
  current_transaction_map w !! key_of name (current_task_id w).

(** [n] pushes, then [n] pops. *)
Fixpoint push_all (name : string) (hs : list Conn) : M unit :=
  match hs with
  | [] => ret tt
  | h :: hs' => let* _ := push_transaction name h in push_all name hs'
  end.

Fixpoint pop_times (name : string) (n : nat) : M unit :=
  match n with
  | O => ret tt
  | S n' => let* _ := pop_transaction name in pop_times name n'
  end.

(** What lines 29-37 return once the name is settled. *)
Definition current_handle (w : World) (name : string) : Result Conn :=
  if loop_running w then
    match stack_of w name with
    | Some d => match last d with
                | Some h => Ok h
                | None => base_connection w name
                end
    | None => base_connection w name
    end
  else if current_loop w then base_connection w name
  else Raise RuntimeError.

(** The scheduler hands control to the task whose [id] is [tid]. *)
Definition switch_task (tid : N) (w : World) : World :=
  {| connections := connections w;
     loop_running := loop_running w;
     current_loop := current_loop w;
     current_task_id := tid;
     current_transaction_map := current_transaction_map w |}.

End Registry.

Arguments World Conn : clear implicits.
Arguments M Conn A : clear implicits.

Notation "'let*' x := c 'in' k" := (bind c (λ x, k))
  (at level 10, x name, c at level 100, k at level 200).

(** ** Transaction scopes and the [atomic] decorator *)

Section TransactionScope.

Context {Conn : Type}.

(** The operations of a connection handle (spec section 6).  Each may
    fail, and each may suspend the task, so it is a computation on the
    whole process state.  [name_of] is the name a connection object
    carries; [in_transaction] hands the scope nothing but that object. *)
Variable begin : Conn → M Conn Conn.
Variable commit : Conn → M Conn unit.
Variable rollback : Conn → M Conn unit.
Variable name_of : Conn → string.

(** Modelled from the spec: the class behind [connection._in_transaction()]
    is not part of transactions.py.  A TransactionScope wraps the
    connection that [resolve] returned (spec section 4.2). *)
Record TransactionContext : Type := mkTransactionContext {
  connection : Conn
}.

Definition _in_transaction (c : Conn) : TransactionContext :=
  mkTransactionContext c.

(** Modelled from the spec: scope entry of the missing TransactionContext
    (section 4.2): the resolved connection is asked to [begin()], and the
    handle it returns is pushed under the current key. *)
Definition aenter (ctx : TransactionContext) : M Conn Conn :=
  let* h := begin (connection ctx) in
  let* _ := push_transaction (name_of (connection ctx)) h in
  ret h.

(** Modelled from the spec: scope exit of the missing TransactionContext
    (section 4.2): [commit()] on normal exit, [rollback()] on abnormal
    exit, then the pop in either case, also when commit or rollback
    failed; such a failure is surfaced after the pop (section 7).  The
    exit returns [None], so the [with] statement re-raises the failure
    of its body. *)
Definition aexit (ctx : TransactionContext) (h : Conn) (exc : option exn)
  : M Conn unit := λ w,
  let '(r, w1) := match exc with
                  | None => commit h w
                  | Some _ => rollback h w
                  end in
  let '(p, w2) := pop_transaction (name_of (connection ctx)) w1 in
  (match r with
   | Ok _ => p
   | Raise e => Raise e
   end, w2).

(** Python's [async with mgr: body] for a manager whose exit returns
    [None]: a failure of entry skips body and exit; the exit runs after
    the body on both outcomes; a failure of the exit replaces the
    outcome of the body. *)
Definition async_with {CM V A : Type} (mgr : M Conn CM)
    (enter : CM → M Conn V) (exit : CM → V → option exn → M Conn unit)
    (body : M Conn A) : M Conn A :=
  let* cm := mgr in
  let* v := enter cm in
  λ w, match body w with
       | (Ok a, w') => (let* _ := exit cm v None in ret a) w'
       | (Raise e, w') => (let* _ := exit cm v (Some e) in raise e) w'
       end.

(** Lines 54-65. *)
Definition in_transaction (connection_name : option string)
  : M Conn TransactionContext :=
  let* connection := get_connection connection_name in
  ret (_in_transaction connection).

(** Lines 68-87: [atomic(connection_name)(func)] is [wrapped]. *)
Definition atomic (connection_name : option string) {Args A : Type}
    (func : Args → M Conn A) : Args → M Conn A :=
  λ args,
    async_with (in_transaction connection_name) aenter aexit (func args).

End TransactionScope.

(** ** Concrete process states *)

Definition w_none : World string := mkWorld [] true true 7 ∅.

Definition w_default : World string :=
  mkWorld [("default", "C1")] true true 4242 ∅.

Definition w_ab : World string :=
  mkWorld [("a", "A"); ("b", "B")] true true 4242 ∅.

Definition w_idle : World string :=
  mkWorld [("default", "C1")] false true 4242 {[ key_of "default" 4242 := ["T1"] ]}.

Definition w_nested : World string :=
  mkWorld [("default", "C1")] true true 4242 {[ key_of "default" 4242 := ["T1"; "T2"] ]}.


(** Two connections whose names differ by a trailing digit, and two
    tasks whose addresses differ by the same leading digit. *)
Definition w_db : World string :=
  mkWorld [("db", "DB"); ("db1", "DB1")] true true 40000000000016 ∅.

(** A thread without a current event loop. *)
Definition w_no_loop : World string :=
  mkWorld [("default", "C1")] false false 4242 ∅.


(** A driver whose operations all succeed, and two units of work. *)
Definition begin_tx (c : string) : M string string := ret ("tx(" +:+ c +:+ ")").
Definition commit_ok (h : string) : M string unit := ret tt.
Definition rollback_ok (h : string) : M string unit := ret tt.
Definition name_default (c : string) : string := "default".
Definition returns_five (args : unit) : M string nat := ret 5%nat.


(** ** Sequences of pushes and pops *)

Section Sequences.

Context {Conn : Type}.

(** One call of [push_transaction] or of [pop_transaction]. *)
Inductive op : Type :=
  | Push (h : Conn)
  | Pop.

(** The calls of a sequence, one after the other, by the current task
    and under one name; the first failure ends the run. *)
Fixpoint run_ops (name : string) (ops : list op) : M Conn unit :=
  match ops with
  | [] => ret tt
  | Push h :: ops' => let* _ := push_transaction name h in run_ops name ops'
  | Pop :: ops' => let* _ := pop_transaction name in run_ops name ops'
  end.

(** The same sequence on a bare list used as a stack, top at the right
    end; [None] when a pop meets the empty stack. *)
Fixpoint stack_ops (ops : list op) (d : list Conn) : option (list Conn) :=
  match ops with
  | [] => Some d
  | Push h :: ops' => stack_ops ops' (d ++ [h])
  | Pop :: ops' =>
      match d with
      | [] => None
      | _ :: _ => stack_ops ops' (removelast d)
      end
  end.

(** A sequence is well nested above [depth] open scopes when no pop
    comes without an earlier unmatched push and every push is matched at
    the end: the shape that nested [async with] blocks produce. *)
Fixpoint nested (depth : nat) (ops : list op) : bool :=
  match ops with
  | [] => (depth =? 0)%nat
  | Push _ :: ops' => nested (S depth) ops'
  | Pop :: ops' =>
      match depth with
      | O => false
      | S n => nested n ops'
      end
  end.

(** How a successful run keeps a stack in the map: under its key while
    it holds a handle, not at all once it is empty. *)
Definition store (key : string) (d : list Conn) (m : gmap string (list Conn))
  : gmap string (list Conn) :=
  if nonempty d then <[key := d]> m else delete key m.

(** [w'] is [w] except, possibly, for the map entry under [key]. *)
Definition differs_only_at (key : string) (w w' : World Conn) : Prop :=
  connections w' = connections w
  ∧ loop_running w' = loop_running w
  ∧ current_loop w' = current_loop w
  ∧ current_task_id w' = current_task_id w
  ∧ ∀ key', key' ≠ key →
            current_transaction_map w' !! key' = current_transaction_map w !! key'.

(** No key is bound to an empty deque. *)
Definition no_empty_deque (w : World Conn) : Prop :=
  ∀ key, current_transaction_map w !! key ≠ Some [].

End Sequences.

Arguments op Conn : clear implicits.

(** The characters [str] produces. *)
Definition is_digit (a : Ascii.ascii) : bool :=
  let n := Ascii.N_of_ascii a in (48 <=? n)%N && (n <=? 57)%N.

Fixpoint all_digits (s : string) : bool :=
  match s with
  | EmptyString => true
  | String a s' => is_digit a && all_digits s'
  end.

(** More concrete states: a stale empty deque, as a failed pop leaves it,
    and the calls of two nested scopes followed by a third scope. *)
Definition w_stale : World string :=
  mkWorld [("default", "C1")] true true 4242 {[ key_of "default" 4242 := [] ]}.

Definition w_two_tasks : World string :=
  mkWorld [("default", "C1"); ("other", "C2")] true true 4242
    {[ key_of "default" 77 := ["U1"] ]}.

Definition nested_scopes : list (op string) :=
  [Push "T1"; Push "T2"; Pop; Pop; Push "T3"; Pop].

(** * Properties *)

Section RegistryFacts.

Context {Conn : Type}.
Implicit Types (w : World Conn) (name : string) (cn : option string).

(** ** Stepping lemmas *)

Lemma set_map_id (w : World Conn) : set_map (current_transaction_map w) w = w.
Proof. by destruct w. Qed.

Lemma set_map_set_map (m m' : gmap string (list Conn)) (w : World Conn) :
  set_map m (set_map m' w) = set_map m w.
Proof. done. Qed.

Lemma bind_ok {A B : Type} (c : M Conn A) (f : A → M Conn B)
    (w w' : World Conn) (a : A) :
  c w = (Ok a, w') → bind c f w = f a w'.
Proof. intros H. unfold bind. by rewrite H. Qed.

Lemma length_keys (conns : list (string * Conn)) :
  length (keys conns) = length conns.
Proof. apply length_map. Qed.

(** The tail of [get_connection] (lines 29-37) once the name is known. *)
Lemma get_connection_resolved (w : World Conn) (cn : option string) (name : string) :
  resolves_to (connections w) cn name →
  get_connection cn w =
    (if loop_running w then
       match stack_of w name with
       | Some d => match last d with
                   | Some h => Ok h
                   | None => base_connection w name
                   end
       | None => base_connection w name
       end
     else if current_loop w then base_connection w name
     else Raise RuntimeError, w).
Proof.
  intros Hres.
  assert (Hname : (negb (truthy cn) && negb (length (connections w) =? 1)%nat = false)
                  ∧ (if negb (truthy cn) then list_getitem0 (keys (connections w))
                     else ret (str_of cn)) w = (Ok name, w)).
  { destruct Hres as [[Ht ->] | [Hf Hk]].
    - rewrite Ht. done.
    - rewrite Hf. rewrite <- length_keys, Hk. done. }
  destruct Hname as [Hguard Hname].
  unfold get_connection, bind at 1, gets at 1. rewrite Hguard.
  rewrite (bind_ok _ _ _ _ _ Hname).
  unfold bind at 1, get_event_loop.
  unfold base_connection, stack_of, key_of, dict_getitem.
  destruct (loop_running w) eqn:Hrun; simpl.
  - unfold bind at 1, gets at 1. rewrite Hrun. simpl.
    unfold bind at 1, id_current_task. rewrite Hrun.
    unfold bind at 1, contains, gets.
    destruct (current_transaction_map w !! (name +:+ str (current_task_id w)))
      as [d|] eqn:Hd.
    + rewrite bool_decide_eq_true_2 by eauto.
      unfold bind, defaultdict_getitem. rewrite Hd. simpl.
      destruct d as [|x d]; simpl.
      * by destruct (assoc name (connections w)).
      * rewrite Hd. unfold deque_last.
        destruct (last (x :: d)) eqn:Hl; [done|].
        by apply last_None in Hl.
    + rewrite bool_decide_eq_false_2 by (intros [? ?]; done).
      unfold bind, ret. by destruct (assoc name (connections w)).
  - destruct (current_loop w); [|done].
    unfold bind, gets. rewrite Hrun. simpl.
    by destruct (assoc name (connections w)).
Qed.

(** Lines 20-24. *)
Lemma get_connection_ambiguous (w : World Conn) (cn : option string) :
  truthy cn = false → length (connections w) ≠ 1%nat →
  get_connection cn w = (Raise (ParamsError (keys (connections w))), w).
Proof.
  intros Hf Hlen. unfold get_connection, bind, gets. rewrite Hf.
  by rewrite (proj2 (Nat.eqb_neq _ _) Hlen).
Qed.

(** Lines 40-42 with a running loop: the handle goes on the right
    end of the task's deque, which is created when missing. *)
Lemma push_transaction_run (w : World Conn) (name : string) (c : Conn) :
  loop_running w = true →
  push_transaction name c w =
    (Ok tt,
     set_map (<[key_of name (current_task_id w) :=
                  default [] (stack_of w name) ++ [c]]>
                (current_transaction_map w)) w).
Proof.
  intros Hrun.
  unfold push_transaction, bind, id_current_task, defaultdict_getitem,
    deque_append, modify_map, stack_of, key_of.
  rewrite Hrun.
  destruct (current_transaction_map w !! (name +:+ str (current_task_id w)))
    as [d|] eqn:Hd; simpl; [done|].
  by rewrite insert_insert_eq.
Qed.

(** Lines 45-51 on a non-empty deque. *)
Lemma pop_transaction_run (w : World Conn) (name : string) (d : list Conn) (h : Conn) :
  loop_running w = true →
  stack_of w name = Some (d ++ [h]) →
  pop_transaction name w =
    (Ok tt,
     set_map (if nonempty d
              then <[key_of name (current_task_id w) := d]>
                     (current_transaction_map w)
              else delete (key_of name (current_task_id w))
                     (current_transaction_map w)) w).
Proof.
  intros Hrun Hd. unfold stack_of, key_of in *.
  unfold pop_transaction, bind at 1, id_current_task. rewrite Hrun.
  unfold bind at 1, defaultdict_getitem at 1. rewrite Hd.
  unfold bind at 1, deque_pop. rewrite last_snoc, removelast_last.
  unfold bind at 1, modify_map, ret.
  unfold bind at 1, defaultdict_getitem. simpl.
  rewrite lookup_insert_eq.
  destruct d as [|x d]; simpl; [|done].
  unfold bind, dict_pop, ret. simpl. rewrite lookup_insert_eq.
  by rewrite delete_insert_eq.
Qed.

(** Line 47 when the key is missing: the subscript binds it to a new
    empty deque, then [pop()] fails. *)
Lemma pop_transaction_absent (w : World Conn) (name : string) :
  loop_running w = true →
  stack_of w name = None →
  pop_transaction name w =
    (Raise IndexError,
     set_map (<[key_of name (current_task_id w) := []]>
                (current_transaction_map w)) w).
Proof.
  intros Hrun Hd. unfold stack_of, key_of in *.
  unfold pop_transaction, bind at 1, id_current_task. rewrite Hrun.
  unfold bind at 1, defaultdict_getitem at 1. rewrite Hd.
  by unfold bind, deque_pop.
Qed.

Lemma pop_transaction_empty (w : World Conn) (name : string) :
  loop_running w = true →
  stack_of w name = Some [] →
  pop_transaction name w = (Raise IndexError, w).
Proof.
  intros Hrun Hd. unfold stack_of, key_of in *.
  unfold pop_transaction, bind at 1, id_current_task. rewrite Hrun.
  unfold bind at 1, defaultdict_getitem at 1. rewrite Hd.
  by unfold bind, deque_pop.
Qed.

Lemma stack_of_set_map (w : World Conn) (name : string) (m : gmap string (list Conn)) :
  stack_of (set_map m w) name = m !! key_of name (current_task_id w).
Proof. done. Qed.

Lemma push_all_run (name : string) (hs : list Conn) (w : World Conn) :
  loop_running w = true →
  hs ≠ [] →
  push_all name hs w =
    (Ok tt,
     set_map (<[key_of name (current_task_id w) :=
                  default [] (stack_of w name) ++ hs]>
                (current_transaction_map w)) w).
Proof.
  revert w. induction hs as [|h hs IH]; intros w Hrun Hne; [done|].
  simpl. rewrite (bind_ok _ _ _ _ _ (push_transaction_run w name h Hrun)).
  destruct hs as [|h' hs].
  - done.
  - rewrite IH by done. rewrite stack_of_set_map. simpl.
    rewrite lookup_insert_eq, insert_insert_eq. simpl.
    by rewrite <- app_assoc.
Qed.

Lemma pop_times_run (name : string) (hs d : list Conn) (w : World Conn) :
  loop_running w = true →
  hs ≠ [] →
  stack_of w name = Some (d ++ hs) →
  pop_times name (length hs) w =
    (Ok tt,
     set_map (if nonempty d
              then <[key_of name (current_task_id w) := d]>
                     (current_transaction_map w)
              else delete (key_of name (current_task_id w))
                     (current_transaction_map w)) w).
Proof.
  revert w. induction hs as [|h hs IH] using rev_ind; intros w Hrun Hne Hd;
    [done|].
  rewrite length_app, Nat.add_comm. simpl.
  rewrite app_assoc in Hd.
  rewrite (bind_ok _ _ _ _ _ (pop_transaction_run w name _ h Hrun Hd)).
  destruct hs as [|h' hs].
  - rewrite app_nil_r. done.
  - assert (Hnz : nonempty (d ++ h' :: hs) = true) by by destruct d.
    rewrite Hnz. rewrite IH; [| done | done |].
    + simpl. rewrite set_map_set_map.
      destruct (nonempty d).
      * by rewrite insert_insert_eq.
      * by rewrite delete_insert_eq.
    + rewrite stack_of_set_map. by rewrite lookup_insert_eq.
Qed.

(** Lines 20-27 either settle on a name or raise. *)
Lemma resolve_cases (conns : list (string * Conn)) cn :
  (∃ name, resolves_to conns cn name)
  ∨ (truthy cn = false ∧ length conns ≠ 1%nat).
Proof.
  destruct (truthy cn) eqn:Ht.
  - left. destruct cn as [s|]; [|done]. exists s. by left.
  - destruct conns as [|[k v] [|kv conns]].
    + right. done.
    + left. exists k. by right.
    + right. done.
Qed.

Lemma get_connection_current_handle w cn name :
  resolves_to (connections w) cn name →
  get_connection cn w = (current_handle w name, w).
Proof. apply get_connection_resolved. Qed.


Lemma resolves_to_inferred (conns : list (string * Conn)) name :
  keys conns = [name] → resolves_to conns None name.
Proof. intros Hk. by right. Qed.

(** ** The claims about [get_connection] *)

(** C1.  With the loop running, [get_connection] returns the right end
    (the most recently pushed handle) of the deque stored under the key
    of the settled name and the current task when that deque exists and
    is not empty, and otherwise what [Tortoise._connections[name]]
    gives: the base connection registered under the name. *)
Theorem get_connection_running_top_or_base w cn name :
  loop_running w = true →
  resolves_to (connections w) cn name →
  get_connection cn w =
    (match current_transaction_map w !! key_of name (current_task_id w) with
     | Some d => match last d with
                 | Some h => Ok h
                 | None => base_connection w name
                 end
     | None => base_connection w name
     end, w).
Proof.
  intros Hrun Hres. rewrite (get_connection_resolved w cn name Hres).
  by rewrite Hrun.
Qed.

(** C3, amended.  With the name omitted, [get_connection] raises
    ParamsError, carrying the registered names, exactly when the number
    of registered connections is not one (none, or more than one); with
    exactly one registered connection it goes on with that name. *)
Theorem get_connection_omitted_name w :
  ((∃ names, fst (get_connection None w) = Raise (ParamsError names))
     ↔ length (connections w) ≠ 1%nat)
  ∧ (length (connections w) ≠ 1%nat →
     get_connection None w = (Raise (ParamsError (keys (connections w))), w))
  ∧ (∀ name, keys (connections w) = [name] →
     get_connection None w = (current_handle w name, w)
     ∧ ∃ c, base_connection w name = Ok c).
Proof.
  assert (Hone : ∀ name, keys (connections w) = [name] →
            get_connection None w = (current_handle w name, w)
            ∧ ∃ c, base_connection w name = Ok c).
  { intros name Hk. split.
    - apply get_connection_current_handle. by right.
    - unfold base_connection.
      destruct (connections w) as [|[k v] [|? ?]]; simplify_eq/=.
      rewrite String.eqb_refl. eauto. }
  split; [|split].
  - split.
    + intros [names Hraise] Hlen.
      destruct (connections w) as [|[k v] [|? ?]] eqn:Hc; simplify_eq/=.
      destruct (Hone k) as [Hget [c Hbase]]; [by rewrite ?Hc|].
      rewrite Hget in Hraise. simpl in Hraise.
      unfold current_handle in Hraise. rewrite Hbase in Hraise.
      destruct (loop_running w); [|by destruct (current_loop w)].
      destruct (stack_of w k) as [d|]; [|done].
      by destruct (last d).
    + intros Hlen. rewrite get_connection_ambiguous by done. eauto.
  - intros Hlen. by apply get_connection_ambiguous.
  - done.
Qed.

(** C7, amended.  With no running loop, in a thread that has a current
    event loop for [asyncio.get_event_loop()] to return, [get_connection]
    returns what [Tortoise._connections] holds under the settled name,
    whatever the transaction map contains. *)
Theorem get_connection_no_loop_base w cn name (m : gmap string (list Conn)) :
  loop_running w = false →
  current_loop w = true →
  resolves_to (connections w) cn name →
  get_connection cn (set_map m w) = (base_connection w name, set_map m w).
Proof.
  intros Hrun Hloop Hres.
  rewrite (get_connection_resolved (set_map m w) cn name) by done.
  simpl. by rewrite Hrun, Hloop.
Qed.

Lemma get_connection_preserves w cn : snd (get_connection cn w) = w.
Proof.
  destruct (resolve_cases (connections w) cn) as [[name Hres] | [Hf Hlen]].
  - by rewrite (get_connection_resolved w cn name Hres).
  - by rewrite get_connection_ambiguous.
Qed.

(** C8.  [get_connection] leaves the process state, and with it the
    transaction map, as it found it on every path; a key that was
    missing is still missing afterwards. *)
Theorem get_connection_frame w cn :
  snd (get_connection cn w) = w
  ∧ current_transaction_map (snd (get_connection cn w))
    = current_transaction_map w
  ∧ ∀ key, current_transaction_map w !! key = None →
           current_transaction_map (snd (get_connection cn w)) !! key = None.
Proof.
  rewrite get_connection_preserves. done.
Qed.


(** ** The claims about [push_transaction] and [pop_transaction] *)

(** C4.  [pop_transaction] takes the right-most handle off the task's
    deque and deletes the key when that leaves the deque empty; so,
    starting from a map without the key, n pushes followed by n pops
    all succeed and give back the very same map, the key is missing
    again, and [get_connection] is back at the base connection. *)
Theorem balanced_push_pop_leaves_no_entry w name :
  loop_running w = true →
  (∀ d h, stack_of w name = Some (d ++ [h]) →
     pop_transaction name w =
       (Ok tt,
        set_map (if nonempty d
                 then <[key_of name (current_task_id w) := d]>
                        (current_transaction_map w)
                 else delete (key_of name (current_task_id w))
                        (current_transaction_map w)) w))
  ∧ (∀ hs cn c,
       stack_of w name = None →
       resolves_to (connections w) cn name →
       base_connection w name = Ok c →
       ∃ w', (let* _ := push_all name hs in pop_times name (length hs)) w
             = (Ok tt, w')
             ∧ w' = w
             ∧ current_transaction_map w' !! key_of name (current_task_id w')
               = None
             ∧ get_connection cn w' = (Ok c, w')).
Proof.
  intros Hrun. split.
  - intros d h Hd. by apply (pop_transaction_run w name d h).
  - intros hs cn c Hnone Hres Hbase. exists w.
    split; [|split; [done|split; [done|]]].
    + destruct hs as [|h hs]; [done|].
      rewrite (bind_ok _ _ _ _ _ (push_all_run name (h :: hs) w Hrun ltac:(done))).
      rewrite Hnone. simpl default.
      rewrite (pop_times_run name (h :: hs) []); [| done | done |].
      * simpl. rewrite set_map_set_map, delete_insert_eq.
        rewrite delete_id by done. by rewrite set_map_id.
      * rewrite stack_of_set_map. by rewrite lookup_insert_eq.
    + rewrite (get_connection_resolved w cn name Hres).
      rewrite Hrun, Hnone. by rewrite Hbase.
Qed.

(** C5.  The deque of a task is a stack: after [h1] and then [h2] are
    pushed under a name, [get_connection] for that name returns [h2];
    after one pop it returns [h1]. *)
Theorem stack_is_lifo w name cn (h1 h2 : Conn) :
  loop_running w = true →
  resolves_to (connections w) cn name →
  ∃ w2 w1,
    (let* _ := push_transaction name h1 in
     let* _ := push_transaction name h2 in
     get_connection cn) w = (Ok h2, w2)
    ∧ (let* _ := pop_transaction name in get_connection cn) w2 = (Ok h1, w1)
    ∧ stack_of w2 name = Some (default [] (stack_of w name) ++ [h1; h2])
    ∧ stack_of w1 name = Some (default [] (stack_of w name) ++ [h1]).
Proof.
  intros Hrun Hres.
  set (k := key_of name (current_task_id w)).
  set (d := default [] (stack_of w name)).
  set (m := current_transaction_map w).
  exists (set_map (<[k := d ++ [h1; h2]]> m) w), (set_map (<[k := d ++ [h1]]> m) w).
  split; [|split; [|split]].
  - unfold bind at 1.
    rewrite (push_transaction_run w name h1 Hrun).
    unfold bind at 1. rewrite push_transaction_run by done.
    rewrite stack_of_set_map. simpl. rewrite lookup_insert_eq. simpl.
    rewrite insert_insert_eq. fold k m d.
    rewrite (get_connection_resolved _ cn name) by done.
    simpl. rewrite Hrun. unfold stack_of. simpl. fold k.
    rewrite lookup_insert_eq.
    change [h1; h2] with ([h1] ++ [h2]).
    by rewrite app_assoc, last_snoc.
  - assert (Hstk : stack_of (set_map (<[k := d ++ [h1; h2]]> m) w) name
                   = Some ((d ++ [h1]) ++ [h2])).
    { rewrite stack_of_set_map. fold k. rewrite lookup_insert_eq.
      by rewrite <- app_assoc. }
    rewrite (bind_ok _ _ _ _ _
               (pop_transaction_run (set_map (<[k := d ++ [h1; h2]]> m) w)
                  name _ h2 Hrun Hstk)).
    assert (Hnz : nonempty (d ++ [h1]) = true) by by destruct d.
    rewrite Hnz. simpl. fold k. rewrite insert_insert_eq.
    rewrite (get_connection_resolved _ cn name) by done.
    simpl. rewrite Hrun. unfold stack_of. simpl. fold k.
    by rewrite lookup_insert_eq, last_snoc.
  - rewrite stack_of_set_map. fold k. by rewrite lookup_insert_eq.
  - rewrite stack_of_set_map. fold k. by rewrite lookup_insert_eq.
Qed.

(** C9, amended.  When the key of the name and the current task is
    missing, [pop_transaction] raises IndexError (pop from an empty
    deque) and leaves the map changed: the key is now bound to a new
    empty deque, lines 50-51 are not reached, and further failing pops
    leave that entry where it is; the next push followed by a pop under
    the name removes it again and gives back the state before the
    failing pop. *)
Theorem pop_absent_key_leaves_empty_stack w name :
  loop_running w = true →
  stack_of w name = None →
  ∃ w',
    pop_transaction name w = (Raise IndexError, w')
    ∧ current_transaction_map w' !! key_of name (current_task_id w) = Some []
    ∧ current_transaction_map w'
      = <[key_of name (current_task_id w) := []]> (current_transaction_map w)
    ∧ w' ≠ w
    ∧ pop_transaction name w' = (Raise IndexError, w')
    ∧ ∀ c, (let* _ := push_transaction name c in pop_transaction name) w'
           = (Ok tt, w).
Proof.
  intros Hrun Hnone.
  exists (set_map (<[key_of name (current_task_id w) := []]>
                     (current_transaction_map w)) w).
  split; [by apply pop_transaction_absent|].
  split; [simpl; by rewrite lookup_insert_eq|].
  split; [done|]. split.
  - intros Heq. unfold stack_of in Hnone. rewrite <- Heq in Hnone.
    simpl in Hnone. by rewrite lookup_insert_eq in Hnone.
  - split.
    + apply pop_transaction_empty; [done|].
      rewrite stack_of_set_map. by rewrite lookup_insert_eq.
    + intros c.
      set (k := key_of name (current_task_id w)).
      set (w' := set_map (<[k := []]> (current_transaction_map w)) w).
      assert (Hstale : stack_of w' name = Some []).
      { unfold w'. rewrite stack_of_set_map. by rewrite lookup_insert_eq. }
      rewrite (bind_ok _ _ _ _ _ (push_transaction_run w' name c Hrun)).
      rewrite Hstale. simpl default. simpl app.
      rewrite (pop_transaction_run _ name [] c); [| done |].
      * unfold w'. simpl. fold k. rewrite !delete_insert_eq.
        unfold stack_of in Hnone. fold k in Hnone.
        rewrite delete_id by done.
        change (set_map (current_transaction_map w)
                  (set_map (<[k := [c]]> (<[k := []]> (current_transaction_map w)))
                     (set_map (<[k := []]> (current_transaction_map w)) w)))
          with (set_map (current_transaction_map w) w).
        by rewrite set_map_id.
      * rewrite stack_of_set_map. simpl. by rewrite lookup_insert_eq.
Qed.

End RegistryFacts.

(** ** Keys *)

Section KeyFacts.

Lemma str_inj (n n' : N) : str n = str n' → n = n'.
Proof.
  intros H. apply DecimalN.Unsigned.to_uint_inj.
  pose proof (NilEmpty.usu (N.to_uint n)) as H1.
  pose proof (NilEmpty.usu (N.to_uint n')) as H2.
  unfold str in H. rewrite H, H2 in H1. by injection H1.
Qed.

Lemma length_append (s t : string) :
  String.length (s +:+ t) = (String.length s + String.length t)%nat.
Proof. induction s as [|a s IH]; simpl; [done|]. by rewrite IH. Qed.

Lemma append_cancel_r (s1 s2 t : string) : s1 +:+ t = s2 +:+ t → s1 = s2.
Proof.
  revert s2. induction s1 as [|a s1 IH]; intros [|b s2] H; simpl in *.
  - done.
  - apply (f_equal String.length) in H. simpl in H.
    rewrite !length_append in H. simpl in H. lia.
  - apply (f_equal String.length) in H. simpl in H.
    rewrite !length_append in H. simpl in H. lia.
  - injection H as -> H. f_equal. by apply IH.
Qed.

(** Two tasks under one name never share a key. *)
Lemma key_of_inj_task (name : string) (t1 t2 : N) :
  key_of name t1 = key_of name t2 → t1 = t2.
Proof.
  unfold key_of. intros H. apply str_inj.
  by apply (inj (String.app name)) in H.
Qed.

(** Two names in one task never share a key. *)
Lemma key_of_inj_name (n1 n2 : string) (t : N) :
  key_of n1 t = key_of n2 t → n1 = n2.
Proof. unfold key_of. apply append_cancel_r. Qed.

(** C2.  The key is the name followed by the digits of the task's [id],
    with nothing in between, so ("db1", 40000000000016) and
    ("db", 140000000000016) are two pairs with one key: a handle that the
    first task pushes for "db1" is what [get_connection] gives the second
    task for "db", where its own deque is missing and the base
    connection "DB" is registered. *)
Theorem key_collision_across_names :
  ("db1", 40000000000016%N) ≠ ("db", 140000000000016%N)
  ∧ key_of "db1" 40000000000016 = key_of "db" 140000000000016
  ∧ ∃ w',
      push_transaction "db1" "T" w_db = (Ok tt, w')
      ∧ base_connection (switch_task 140000000000016 w_db) "db" = Ok "DB"
      ∧ get_connection (Some "db") (switch_task 140000000000016 w_db)
        = (Ok "DB", switch_task 140000000000016 w_db)
      ∧ get_connection (Some "db") (switch_task 140000000000016 w')
        = (Ok "T", switch_task 140000000000016 w').
Proof.
  split; [done|]. split; [done|].
  eexists. split; [vm_compute; reflexivity|].
  split; [done|]. split; vm_compute; reflexivity.
Qed.

End KeyFacts.

(** ** The [atomic] decorator *)

Section ScopeFacts.

Context {Conn : Type}.
Variable begin : Conn → M Conn Conn.
Variable commit : Conn → M Conn unit.
Variable rollback : Conn → M Conn unit.
Variable name_of : Conn → string.


End ScopeFacts.

(** ** Concrete instances *)

Lemma get_connection_running_top_or_base_witness :
  get_connection None w_nested = (Ok "T2", w_nested)
  ∧ get_connection (Some "default") w_default = (Ok "C1", w_default).
Proof.
  split.
  - apply (get_connection_running_top_or_base w_nested None "default");
      [reflexivity | right; split; reflexivity].
  - apply (get_connection_running_top_or_base w_default (Some "default") "default");
      [reflexivity | left; split; reflexivity].
Defined.

(** C3 as stated fails on an empty registry: the omitted name raises
    ParamsError although not more than one connection is registered. *)
Lemma ambiguity_raised_without_connections :
  get_connection None w_none = (Raise (ParamsError []), w_none)
  ∧ ¬ (1 < length (connections w_none))%nat.
Proof. split; [reflexivity | simpl; lia]. Qed.

Lemma get_connection_omitted_name_witness :
  get_connection None w_default = (Ok "C1", w_default)
  ∧ get_connection None w_ab = (Raise (ParamsError ["a"; "b"]), w_ab).
Proof.
  split.
  - exact (proj1 (proj2 (proj2 (get_connection_omitted_name w_default))
                    "default" eq_refl)).
  - apply (proj1 (proj2 (get_connection_omitted_name w_ab))). simpl. lia.
Defined.

Lemma balanced_push_pop_leaves_no_entry_witness :
  pop_transaction "default" w_nested
    = (Ok tt, set_map {[ key_of "default" 4242 := ["T1"] ]} w_nested)
  ∧ ∃ w',
      (let* _ := push_all "default" ["T1"; "T2"; "T3"] in
       pop_times "default" 3) w_default = (Ok tt, w')
      ∧ w' = w_default
      ∧ current_transaction_map w' !! key_of "default" (current_task_id w') = None
      ∧ get_connection None w' = (Ok "C1", w').
Proof.
  split.
  - exact (proj1 (balanced_push_pop_leaves_no_entry w_nested "default" eq_refl)
             ["T1"] "T2" eq_refl).
  - apply (proj2 (balanced_push_pop_leaves_no_entry w_default "default" eq_refl)
             ["T1"; "T2"; "T3"] None "C1");
      [reflexivity | right; split; reflexivity | reflexivity].
Defined.

Lemma stack_is_lifo_witness :
  ∃ w2 w1,
    (let* _ := push_transaction "default" "T1" in
     let* _ := push_transaction "default" "T2" in
     get_connection None) w_default = (Ok "T2", w2)
    ∧ (let* _ := pop_transaction "default" in get_connection None) w2
      = (Ok "T1", w1)
    ∧ stack_of w2 "default" = Some ["T1"; "T2"]
    ∧ stack_of w1 "default" = Some ["T1"].
Proof.
  apply (stack_is_lifo w_default "default" None "T1" "T2");
    [reflexivity | right; split; reflexivity].
Defined.


(** C7 as stated fails in a thread without a current event loop: no
    loop is running and "default" is registered, yet line 29 raises. *)
Lemma get_connection_without_current_loop_raises :
  loop_running w_no_loop = false
  ∧ base_connection w_no_loop "default" = Ok "C1"
  ∧ get_connection (Some "default") w_no_loop = (Raise RuntimeError, w_no_loop)
  ∧ get_connection None w_no_loop = (Raise RuntimeError, w_no_loop).
Proof. repeat split; vm_compute; reflexivity. Qed.

Lemma get_connection_no_loop_base_witness :
  get_connection None w_idle = (Ok "C1", w_idle).
Proof.
  apply (get_connection_no_loop_base w_idle None "default"
           (current_transaction_map w_idle));
    [reflexivity | reflexivity | right; split; reflexivity].
Defined.


(** C9 as stated fails on the last clause: the empty deque that the
    failing pop leaves is deleted by lines 50-51 at the next pop that
    follows a push. *)
Lemma empty_entry_is_removed_by_next_pop :
  pop_transaction "default" w_default = (Raise IndexError, w_stale)
  ∧ current_transaction_map w_stale !! key_of "default" 4242 = Some []
  ∧ (let* _ := push_transaction "default" "T" in pop_transaction "default")
      w_stale = (Ok tt, w_default)
  ∧ current_transaction_map w_default !! key_of "default" 4242 = None.
Proof. repeat split; vm_compute; reflexivity. Qed.

Lemma pop_absent_key_leaves_empty_stack_witness :
  ∃ w',
    pop_transaction "default" w_default = (Raise IndexError, w')
    ∧ current_transaction_map w' !! key_of "default" 4242 = Some []
    ∧ current_transaction_map w'
      = <[key_of "default" 4242 := []]> (current_transaction_map w_default)
    ∧ w' ≠ w_default
    ∧ pop_transaction "default" w' = (Raise IndexError, w')
    ∧ ∀ c, (let* _ := push_transaction "default" c in pop_transaction "default")
             w' = (Ok tt, w_default).
Proof.
  apply (pop_absent_key_leaves_empty_stack w_default "default");
    reflexivity.
Defined.


Lemma get_connection_frame_witness :
  snd (get_connection (Some "ghost") w_default) = w_default
  ∧ current_transaction_map (snd (get_connection None w_default))
      !! key_of "default" 4242 = None.
Proof.
  split.
  - exact (proj1 (get_connection_frame w_default (Some "ghost"))).
  - exact (proj2 (proj2 (get_connection_frame w_default None))
             (key_of "default" 4242) eq_refl).
Defined.


(** * Further properties of the registry *)

Section SequenceFacts.

Context {Conn : Type}.
Implicit Types (w : World Conn) (name : string) (cn : option string).
Implicit Types (m : gmap string (list Conn)) (d : list Conn).

(** ** The stored form of a stack *)

Lemma store_insert (k : string) d (x : list Conn) m :
  store k d (<[k := x]> m) = store k d m.
Proof.
  unfold store. destruct (nonempty d).
  - by rewrite insert_insert_eq.
  - by rewrite delete_insert_eq.
Qed.

Lemma store_store (k : string) d d' m :
  store k d' (store k d m) = store k d' m.
Proof.
  unfold store at 2. destruct (nonempty d); [apply store_insert|].
  unfold store. destruct (nonempty d').
  - by rewrite insert_delete_eq.
  - by rewrite delete_delete_eq.
Qed.

Lemma lookup_store (k : string) d m :
  store k d m !! k = if nonempty d then Some d else None.
Proof.
  unfold store. destruct (nonempty d).
  - by rewrite lookup_insert_eq.
  - by rewrite lookup_delete_eq.
Qed.

Lemma lookup_store_ne (k k' : string) d m :
  k ≠ k' → store k d m !! k' = m !! k'.
Proof.
  intros Hne. unfold store. destruct (nonempty d).
  - by rewrite lookup_insert_ne.
  - by rewrite lookup_delete_ne.
Qed.

Lemma store_id (k : string) m :
  m !! k ≠ Some [] → store k (default [] (m !! k)) m = m.
Proof.
  intros Hne. unfold store. destruct (m !! k) as [[|x d]|] eqn:Hk; simpl.
  - done.
  - by apply insert_id.
  - by apply delete_id.
Qed.

Lemma nonempty_snoc d (h : Conn) : nonempty (d ++ [h]) = true.
Proof. by destruct d. Qed.

Lemma nonempty_inv d : nonempty d = true → ∃ d' h, d = d' ++ [h].
Proof.
  intros Hd. destruct d as [|x d] using rev_ind; [done|]. eauto.
Qed.

(** ** Outcomes of one call *)

Lemma push_transaction_idle w name (c : Conn) :
  loop_running w = false → push_transaction name c w = (Raise RuntimeError, w).
Proof.
  intros Hrun. unfold push_transaction, bind, id_current_task. by rewrite Hrun.
Qed.

Lemma pop_transaction_idle w name :
  loop_running w = false → pop_transaction name w = (Raise RuntimeError, w).
Proof.
  intros Hrun. unfold pop_transaction, bind, id_current_task. by rewrite Hrun.
Qed.

Lemma push_transaction_store w name (c : Conn) :
  loop_running w = true →
  push_transaction name c w =
    (Ok tt,
     set_map (store (key_of name (current_task_id w))
                (default [] (stack_of w name) ++ [c])
                (current_transaction_map w)) w).
Proof.
  intros Hrun. rewrite push_transaction_run by done.
  unfold store. by rewrite nonempty_snoc.
Qed.

Lemma pop_transaction_store w name d (h : Conn) :
  loop_running w = true →
  stack_of w name = Some (d ++ [h]) →
  pop_transaction name w =
    (Ok tt,
     set_map (store (key_of name (current_task_id w)) d
                (current_transaction_map w)) w).
Proof. apply pop_transaction_run. Qed.

(** Whatever its outcome, a pop leaves a state that differs from the
    old one in the map only, and there under its own key only. *)
Lemma pop_transaction_state w name :
  ∃ m', snd (pop_transaction name w) = set_map m' w
        ∧ ∀ key, key ≠ key_of name (current_task_id w) →
                 m' !! key = current_transaction_map w !! key.
Proof.
  destruct (loop_running w) eqn:Hrun.
  - destruct (stack_of w name) as [d|] eqn:Hd.
    + destruct (nonempty d) eqn:Hnz.
      * destruct (nonempty_inv d Hnz) as (d' & h & ->).
        rewrite (pop_transaction_store w name d' h) by done.
        eexists. split; [done|]. intros key Hkey.
        by rewrite lookup_store_ne.
      * destruct d; [|done]. rewrite pop_transaction_empty by done.
        exists (current_transaction_map w). by rewrite set_map_id.
    + rewrite pop_transaction_absent by done.
      eexists. split; [done|]. intros key Hkey.
      by rewrite lookup_insert_ne.
  - rewrite pop_transaction_idle by done.
    exists (current_transaction_map w). by rewrite set_map_id.
Qed.

Lemma push_transaction_state w name (c : Conn) :
  ∃ m', snd (push_transaction name c w) = set_map m' w
        ∧ ∀ key, key ≠ key_of name (current_task_id w) →
                 m' !! key = current_transaction_map w !! key.
Proof.
  destruct (loop_running w) eqn:Hrun.
  - rewrite push_transaction_run by done.
    eexists. split; [done|]. intros key Hkey.
    by rewrite lookup_insert_ne.
  - rewrite push_transaction_idle by done.
    exists (current_transaction_map w). by rewrite set_map_id.
Qed.

(** X1.  [push_transaction] succeeds exactly when an event loop is
    running: a missing deque is created on the way and never makes it
    fail.  Without a loop neither it nor [pop_transaction] gets as far
    as the map: [asyncio.current_task()] raises RuntimeError and the
    state stays as it was. *)
Theorem push_transaction_succeeds_iff w name (c : Conn) :
  (fst (push_transaction name c w) = Ok tt ↔ loop_running w = true)
  ∧ (loop_running w = false →
     push_transaction name c w = (Raise RuntimeError, w)
     ∧ pop_transaction name w = (Raise RuntimeError, w)).
Proof.
  split.
  - destruct (loop_running w) eqn:Hrun.
    + by rewrite push_transaction_run.
    + by rewrite push_transaction_idle.
  - intros Hrun. split.
    + by apply push_transaction_idle.
    + by apply pop_transaction_idle.
Qed.

(** X2.  [pop_transaction] succeeds exactly when the loop runs and the
    current task's deque for the name holds a handle; in every other
    case it raises: RuntimeError without a loop, IndexError on a missing
    or empty deque. *)
Theorem pop_transaction_succeeds_iff w name :
  (fst (pop_transaction name w) = Ok tt
     ↔ loop_running w = true ∧ ∃ d h, stack_of w name = Some (d ++ [h]))
  ∧ (loop_running w = false →
     fst (pop_transaction name w) = Raise RuntimeError)
  ∧ (loop_running w = true →
     stack_of w name = None ∨ stack_of w name = Some [] →
     fst (pop_transaction name w) = Raise IndexError).
Proof.
  assert (Hidle : loop_running w = false →
                  fst (pop_transaction name w) = Raise RuntimeError).
  { intros Hrun. by rewrite pop_transaction_idle. }
  assert (Hunder : loop_running w = true →
                   stack_of w name = None ∨ stack_of w name = Some [] →
                   fst (pop_transaction name w) = Raise IndexError).
  { intros Hrun [Hd | Hd].
    - by rewrite pop_transaction_absent.
    - by rewrite pop_transaction_empty. }
  split; [|done]. split.
  - intros Hok. destruct (loop_running w) eqn:Hrun.
    + split; [done|].
      destruct (stack_of w name) as [d|] eqn:Hd.
      * destruct (nonempty d) eqn:Hnz.
        -- destruct (nonempty_inv d Hnz) as (d' & h & ->). eauto.
        -- destruct d; [|done]. rewrite Hunder in Hok by auto. done.
      * rewrite Hunder in Hok by auto. done.
    + rewrite Hidle in Hok by done. done.
  - intros [Hrun (d & h & Hd)].
    by rewrite (pop_transaction_store w name d h).
Qed.

(** X3.  A push followed at once by a pop succeeds and gives back the
    state it started from; the one exception is a key bound to an empty
    deque beforehand, which the pair removes. *)
Theorem push_then_pop_restores w name (c : Conn) :
  loop_running w = true →
  (stack_of w name ≠ Some [] →
   (let* _ := push_transaction name c in pop_transaction name) w = (Ok tt, w))
  ∧ (stack_of w name = Some [] →
     (let* _ := push_transaction name c in pop_transaction name) w
     = (Ok tt,
        set_map (delete (key_of name (current_task_id w))
                   (current_transaction_map w)) w)).
Proof.
  intros Hrun.
  assert (Hrun' : (let* _ := push_transaction name c in pop_transaction name) w
                  = (Ok tt,
                     set_map (store (key_of name (current_task_id w))
                                (default [] (stack_of w name))
                                (current_transaction_map w)) w)).
  { rewrite (bind_ok _ _ _ _ _ (push_transaction_store w name c Hrun)).
    rewrite (pop_transaction_store _ name (default [] (stack_of w name)) c);
      [| done |].
    - simpl. by rewrite set_map_set_map, store_store.
    - rewrite stack_of_set_map. rewrite lookup_store.
      by rewrite nonempty_snoc. }
  rewrite Hrun'. split.
  - intros Hne. unfold stack_of in *. rewrite store_id by done.
    by rewrite set_map_id.
  - intros Hd. by rewrite Hd.
Qed.

(** ** Sequences of calls *)

Lemma stack_of_store w name d m :
  stack_of (set_map (store (key_of name (current_task_id w)) d m) w) name
  = if nonempty d then Some d else None.
Proof. rewrite stack_of_set_map. apply lookup_store. Qed.

Lemma default_stack_store w name d m :
  default [] (stack_of (set_map (store (key_of name (current_task_id w)) d m) w)
                name) = d.
Proof. rewrite stack_of_store. by destruct d. Qed.

Lemma stack_of_store_clean w name d m :
  stack_of (set_map (store (key_of name (current_task_id w)) d m) w) name
  ≠ Some [].
Proof. rewrite stack_of_store. by destruct d. Qed.

Lemma stack_of_default w name :
  stack_of w name ≠ Some [] →
  nonempty (default [] (stack_of w name)) = true →
  stack_of w name = Some (default [] (stack_of w name)).
Proof. destruct (stack_of w name) as [[|x d]|]; done. Qed.

(** A run whose stack never underflows ends with the stack stored. *)
Lemma run_ops_store name (ops : list (op Conn)) : ∀ w d',
  loop_running w = true →
  stack_of w name ≠ Some [] →
  stack_ops ops (default [] (stack_of w name)) = Some d' →
  run_ops name ops w =
    (Ok tt,
     set_map (store (key_of name (current_task_id w)) d'
                (current_transaction_map w)) w).
Proof.
  induction ops as [|[h|] ops IH]; intros w d' Hrun Hclean Hops; simpl in *.
  - injection Hops as <-. unfold stack_of in *.
    rewrite store_id by done. by rewrite set_map_id.
  - rewrite (bind_ok _ _ _ _ _ (push_transaction_store w name h Hrun)).
    rewrite (IH _ d'); [| done | apply stack_of_store_clean |].
    + simpl. by rewrite set_map_set_map, store_store.
    + by rewrite default_stack_store.
  - destruct (default [] (stack_of w name)) as [|x d] eqn:Hd; [done|].
    destruct (nonempty_inv (x :: d) eq_refl) as (d0 & h & Hsnoc).
    assert (Hstk : stack_of w name = Some (d0 ++ [h])).
    { rewrite <- Hsnoc, <- Hd. apply stack_of_default; [done|]. by rewrite Hd. }
    rewrite Hsnoc, removelast_last in Hops.
    rewrite (bind_ok _ _ _ _ _ (pop_transaction_store w name d0 h Hrun Hstk)).
    rewrite (IH _ d'); [| done | apply stack_of_store_clean |].
    + simpl. by rewrite set_map_set_map, store_store.
    + by rewrite default_stack_store.
Qed.

(** A run whose stack underflows stops at that pop with IndexError. *)
Lemma run_ops_underflow name (ops : list (op Conn)) : ∀ w,
  loop_running w = true →
  stack_of w name ≠ Some [] →
  stack_ops ops (default [] (stack_of w name)) = None →
  fst (run_ops name ops w) = Raise IndexError.
Proof.
  induction ops as [|[h|] ops IH]; intros w Hrun Hclean Hops; simpl in *.
  - done.
  - rewrite (bind_ok _ _ _ _ _ (push_transaction_store w name h Hrun)).
    apply IH; [done | apply stack_of_store_clean |].
    by rewrite default_stack_store.
  - destruct (default [] (stack_of w name)) as [|x d] eqn:Hd.
    + assert (Hstk : stack_of w name = None)
        by by destruct (stack_of w name) as [[|? ?]|].
      unfold bind. by rewrite pop_transaction_absent.
    + destruct (nonempty_inv (x :: d) eq_refl) as (d0 & h & Hsnoc).
      assert (Hstk : stack_of w name = Some (d0 ++ [h])).
      { rewrite <- Hsnoc, <- Hd. apply stack_of_default; [done|]. by rewrite Hd. }
      rewrite Hsnoc, removelast_last in Hops.
      rewrite (bind_ok _ _ _ _ _ (pop_transaction_store w name d0 h Hrun Hstk)).
      apply IH; [done | apply stack_of_store_clean |].
      by rewrite default_stack_store.
Qed.

Lemma nested_stack_ops (ops : list (op Conn)) : ∀ depth d e,
  nested depth ops = true →
  length e = depth →
  stack_ops ops (d ++ e) = Some d.
Proof.
  induction ops as [|[h|] ops IH]; intros depth d e Hn He; simpl in *.
  - apply Nat.eqb_eq in Hn. subst depth.
    destruct e; [|done]. by rewrite app_nil_r.
  - rewrite <- app_assoc. apply (IH (S depth)); [done|].
    rewrite length_app. simpl. lia.
  - destruct depth as [|depth]; [done|].
    destruct e as [|x e] using rev_ind; [done|].
    rewrite length_app in He. simpl in He.
    rewrite app_assoc, removelast_last.
    destruct ((d ++ e) ++ [x]) eqn:Hnil; [by destruct (d ++ e)|].
    apply (IH depth); [done | lia].
Qed.

(** X4.  Under one key the map is a stack: a sequence of pushes and
    pops by one task succeeds exactly when the same sequence on a bare
    list never pops the empty list, and then the map holds the resulting
    list under the key, or no entry when that list is empty; otherwise
    the run ends in IndexError. *)
Theorem run_ops_refines_stack w name (ops : list (op Conn)) :
  loop_running w = true →
  stack_of w name ≠ Some [] →
  match stack_ops ops (default [] (stack_of w name)) with
  | Some d' =>
      ∃ w', run_ops name ops w = (Ok tt, w')
            ∧ stack_of w' name = (if nonempty d' then Some d' else None)
            ∧ w' = set_map (store (key_of name (current_task_id w)) d'
                              (current_transaction_map w)) w
  | None => fst (run_ops name ops w) = Raise IndexError
  end.
Proof.
  intros Hrun Hclean.
  destruct (stack_ops ops (default [] (stack_of w name))) as [d'|] eqn:Hops.
  - eexists. split; [by apply run_ops_store|].
    split; [apply stack_of_store | done].
  - by apply run_ops_underflow.
Qed.

(** X5.  Well-nested calls leave no trace: when every pop matches an
    earlier push of the sequence and every push is matched, the run
    succeeds, and the state afterwards is the state before whenever the
    key was missing or held handles at the start; when the key was bound
    to an empty deque, a run that is not empty deletes that entry and
    changes nothing else. *)
Theorem nested_scopes_restore_state w name (ops : list (op Conn)) :
  loop_running w = true →
  nested 0 ops = true →
  (stack_of w name ≠ Some [] → run_ops name ops w = (Ok tt, w))
  ∧ (stack_of w name = Some [] → ops ≠ [] →
     run_ops name ops w
     = (Ok tt,
        set_map (delete (key_of name (current_task_id w))
                   (current_transaction_map w)) w)).
Proof.
  intros Hrun Hn. split.
  - intros Hclean.
    rewrite (run_ops_store name ops w (default [] (stack_of w name)));
      [| done | done |].
    + unfold stack_of in *. rewrite store_id by done. by rewrite set_map_id.
    + rewrite <- (app_nil_r (default [] (stack_of w name))) at 1.
      by apply (nested_stack_ops ops 0).
  - intros Hstale Hne.
    destruct ops as [|[h|] ops]; [done | | done]. simpl in *.
    rewrite (bind_ok _ _ _ _ _ (push_transaction_store w name h Hrun)).
    rewrite Hstale. simpl default. simpl app.
    rewrite (run_ops_store name ops _ []);
      [| done | apply stack_of_store_clean |].
    + simpl. by rewrite set_map_set_map, store_store.
    + rewrite default_stack_store.
      by apply (nested_stack_ops ops 1 [] [h]).
Qed.

Lemma push_transaction_frame w name (c : Conn) :
  differs_only_at (key_of name (current_task_id w)) w
    (snd (push_transaction name c w)).
Proof. destruct (push_transaction_state w name c) as (m' & -> & Hm). done. Qed.

Lemma pop_transaction_frame w name :
  differs_only_at (key_of name (current_task_id w)) w
    (snd (pop_transaction name w)).
Proof. destruct (pop_transaction_state w name) as (m' & -> & Hm). done. Qed.

(** X6.  [push_transaction] and [pop_transaction], whether they succeed
    or fail, change nothing but the map entry under the key of their
    name and the current task: the registered connections, the loop
    flags, the task and every other key stay as they were. *)
Theorem push_pop_touch_one_key w name (c : Conn) :
  differs_only_at (key_of name (current_task_id w)) w
    (snd (push_transaction name c w))
  ∧ differs_only_at (key_of name (current_task_id w)) w
      (snd (pop_transaction name w)).
Proof. split; [apply push_transaction_frame | apply pop_transaction_frame]. Qed.

(** ** Empty deques *)

(** X7.  No successful call leaves an empty deque behind: when no key
    is bound to an empty deque, the same holds after [get_connection],
    after [push_transaction], and after every [pop_transaction] that
    succeeds. *)
Theorem no_empty_deque_preserved w name cn (c : Conn) :
  no_empty_deque w →
  no_empty_deque (snd (get_connection cn w))
  ∧ no_empty_deque (snd (push_transaction name c w))
  ∧ (fst (pop_transaction name w) = Ok tt →
     no_empty_deque (snd (pop_transaction name w))).
Proof.
  intros Hinv. split; [|split].
  - by rewrite get_connection_preserves.
  - destruct (loop_running w) eqn:Hrun.
    + rewrite push_transaction_store by done. intros key. simpl.
      destruct (decide (key_of name (current_task_id w) = key)) as [<-|Hne].
      * rewrite lookup_store, nonempty_snoc.
        by destruct (default [] (stack_of w name)).
      * rewrite lookup_store_ne by done. apply Hinv.
    + by rewrite push_transaction_idle.
  - intros Hok.
    destruct (loop_running w) eqn:Hrun;
      [|by rewrite pop_transaction_idle in Hok].
    destruct (stack_of w name) as [d|] eqn:Hd;
      [|by rewrite pop_transaction_absent in Hok].
    destruct (nonempty d) eqn:Hnz.
    + destruct (nonempty_inv d Hnz) as (d' & h & ->).
      rewrite (pop_transaction_store w name d' h) by done.
      intros key. simpl.
      destruct (decide (key_of name (current_task_id w) = key)) as [<-|Hne].
      * rewrite lookup_store. by destruct d'.
      * rewrite lookup_store_ne by done. apply Hinv.
    + destruct d; [|done]. by rewrite pop_transaction_empty in Hok.
Qed.

(** X8.  An empty deque under the key, as a failed pop leaves it, is
    invisible to [get_connection]: the result is the one it gives with
    the key deleted, which with the loop running (where line 34 is
    reached) is what [Tortoise._connections[name]] gives. *)
Theorem stale_empty_deque_is_invisible w name cn :
  resolves_to (connections w) cn name →
  stack_of w name = Some [] →
  fst (get_connection cn w)
  = fst (get_connection cn
           (set_map (delete (key_of name (current_task_id w))
                       (current_transaction_map w)) w))
  ∧ (loop_running w = true →
     fst (get_connection cn w) = base_connection w name).
Proof.
  intros Hres Hd.
  rewrite (get_connection_resolved w cn name Hres).
  rewrite (get_connection_resolved (set_map _ w) cn name) by done.
  simpl. rewrite stack_of_set_map, lookup_delete_eq, Hd. simpl.
  split; [by destruct (loop_running w)|]. by intros ->.
Qed.

End SequenceFacts.

(** ** When two keys coincide *)

Section KeyCollisionFacts.

Lemma all_digits_uint (d : Decimal.uint) :
  all_digits (NilEmpty.string_of_uint d) = true.
Proof. induction d; simpl; by rewrite ?IHd. Qed.

Lemma all_digits_str (n : N) : all_digits (str n) = true.
Proof. apply all_digits_uint. Qed.

Lemma all_digits_append (p t : string) :
  all_digits (p +:+ t) = all_digits p && all_digits t.
Proof.
  induction p as [|a p IH]; simpl; [done|].
  by rewrite IH, andb_assoc.
Qed.

Lemma append_empty_r (s : string) : s +:+ "" = s.
Proof.
  induction s as [|a s IH]; [done|].
  change (String a (s +:+ "") = String a s). by f_equal.
Qed.

(** Two ways to cut one string: one prefix extends the other. *)
Lemma append_eq_split (s1 t1 s2 t2 : string) :
  s1 +:+ t1 = s2 +:+ t2 →
  ∃ p, (s1 = s2 +:+ p ∧ t2 = p +:+ t1) ∨ (s2 = s1 +:+ p ∧ t1 = p +:+ t2).
Proof.
  revert s2. induction s1 as [|a s1 IH]; intros [|b s2] H; simpl in *.
  - exists "". by left.
  - exists (String b s2). by right.
  - exists (String a s1). by left.
  - injection H as -> H. destruct (IH s2 H) as [p [[-> ->] | [-> ->]]];
      exists p; [by left | by right].
Qed.

(** X9.  Two keys coincide only for the same pair, or for two pairs
    that differ in name and in task where one name is the other name
    followed by decimal digits; names of equal length never share a
    key. *)
Theorem key_collisions_need_digit_suffix (n1 n2 : string) (t1 t2 : N) :
  key_of n1 t1 = key_of n2 t2 →
  (n1 = n2 ↔ t1 = t2)
  ∧ (n1 ≠ n2 →
     ∃ p, p ≠ "" ∧ all_digits p = true ∧ (n1 = n2 +:+ p ∨ n2 = n1 +:+ p))
  ∧ (String.length n1 = String.length n2 → n1 = n2 ∧ t1 = t2).
Proof.
  intros Hkey.
  assert (Hiff : n1 = n2 ↔ t1 = t2).
  { split; intros ->.
    - by apply key_of_inj_task in Hkey.
    - by apply key_of_inj_name in Hkey. }
  assert (Hsplit : ∃ p, all_digits p = true
                        ∧ (n1 = n2 +:+ p ∨ n2 = n1 +:+ p)).
  { unfold key_of in Hkey.
    destruct (append_eq_split _ _ _ _ Hkey) as [p [[Hn Ht] | [Hn Ht]]];
      exists p; (split; [|by auto]).
    - pose proof (all_digits_str t2) as Hd.
      rewrite Ht, all_digits_append in Hd. by apply andb_prop in Hd as [? _].
    - pose proof (all_digits_str t1) as Hd.
      rewrite Ht, all_digits_append in Hd. by apply andb_prop in Hd as [? _]. }
  destruct Hsplit as (p & Hp & Hn).
  split; [done|]. split.
  - intros Hne. exists p. split; [|done].
    intros ->. rewrite !append_empty_r in Hn. by destruct Hn.
  - intros Hlen.
    assert (Hp0 : p = "").
    { destruct Hn as [Hn | Hn]; rewrite Hn, length_append in Hlen;
        destruct p; simpl in Hlen; done || lia. }
    subst p. rewrite !append_empty_r in Hn.
    assert (n1 = n2) as Heq by by destruct Hn.
    split; [done|]. by apply Hiff.
Qed.

End KeyCollisionFacts.

(** ** Isolation *)

Section IsolationFacts.

Context {Conn : Type}.
Implicit Types (w : World Conn) (name : string) (cn : option string).

Lemma differs_only_at_refl (k : string) w : differs_only_at k w w.
Proof. done. Qed.

Lemma differs_only_at_trans (k : string) w1 w2 w3 :
  differs_only_at k w1 w2 → differs_only_at k w2 w3 → differs_only_at k w1 w3.
Proof.
  intros (Hc & Hl & Hcl & Ht & Hm) (Hc' & Hl' & Hcl' & Ht' & Hm').
  repeat split; [congruence..|]. intros key Hkey.
  by rewrite Hm', Hm.
Qed.

(** A run, however it ends, changes the entry of its own key only. *)
Lemma run_ops_state name (ops : list (op Conn)) : ∀ w,
  differs_only_at (key_of name (current_task_id w)) w (snd (run_ops name ops w)).
Proof.
  induction ops as [|[h|] ops IH]; intros w; simpl.
  - done.
  - pose proof (push_transaction_frame w name h) as Hstep.
    unfold bind. destruct (push_transaction name h w) as [[[]|e] w1]; simpl in *.
    + eapply differs_only_at_trans; [done|].
      destruct Hstep as (_ & _ & _ & Ht & _). rewrite <- Ht. apply IH.
    + done.
  - pose proof (pop_transaction_frame w name) as Hstep.
    unfold bind. destruct (pop_transaction name w) as [[[]|e] w1]; simpl in *.
    + eapply differs_only_at_trans; [done|].
      destruct Hstep as (_ & _ & _ & Ht & _). rewrite <- Ht. apply IH.
    + done.
Qed.

(** [get_connection] reads the registered connections, the loop flag
    and the one deque of the settled name and the current task. *)
Lemma get_connection_reads w1 w2 cn name :
  resolves_to (connections w1) cn name →
  connections w2 = connections w1 →
  loop_running w2 = loop_running w1 →
  current_loop w2 = current_loop w1 →
  stack_of w2 name = stack_of w1 name →
  fst (get_connection cn w2) = fst (get_connection cn w1).
Proof.
  intros Hres Hc Hl Hcl Hs.
  rewrite (get_connection_resolved w1 cn name Hres).
  rewrite (get_connection_resolved w2 cn name) by by rewrite Hc.
  simpl. unfold base_connection. by rewrite Hc, Hl, Hcl, Hs.
Qed.

(** X10.  Tasks do not see each other under one name: whatever pushes
    and pops the current task runs under a name, and however the run
    ends, what another task resolves for that name is what it resolved
    before. *)
Theorem other_task_is_not_affected w name cn (ops : list (op Conn)) (t2 : N) :
  t2 ≠ current_task_id w →
  resolves_to (connections w) cn name →
  fst (get_connection cn (switch_task t2 (snd (run_ops name ops w))))
  = fst (get_connection cn (switch_task t2 w)).
Proof.
  intros Ht Hres.
  destruct (run_ops_state name ops w) as (Hc & Hl & Hcl & _ & Hm).
  apply (get_connection_reads _ _ cn name); [done..|].
  unfold stack_of. simpl. apply Hm.
  intros Hkey. by apply key_of_inj_task in Hkey.
Qed.

(** X11.  Names do not mix within one task: whatever pushes and pops
    the task runs under one name, what it resolves for a different name
    is what it resolved before. *)
Theorem other_name_is_not_affected w name name2 cn (ops : list (op Conn)) :
  name2 ≠ name →
  resolves_to (connections w) cn name2 →
  fst (get_connection cn (snd (run_ops name ops w)))
  = fst (get_connection cn w).
Proof.
  intros Hn Hres.
  destruct (run_ops_state name ops w) as (Hc & Hl & Hcl & Ht & Hm).
  apply (get_connection_reads _ _ cn name2); [done..|].
  unfold stack_of. rewrite Ht. apply Hm.
  intros Hkey. by apply key_of_inj_name in Hkey.
Qed.

End IsolationFacts.

(** ** Outcomes of [get_connection] and of its callers *)

Section ResolutionFacts.

Context {Conn : Type}.
Implicit Types (w : World Conn) (name : string) (cn : option string).




(** X13.  [get_connection] hands out nothing of its own making: a
    connection it returns is registered in [Tortoise._connections] or is
    the right-most handle of the deque under the current task's key. *)
Theorem get_connection_returns_known_handle w cn (c : Conn) :
  fst (get_connection cn w) = Ok c →
  ∃ name, resolves_to (connections w) cn name
          ∧ (assoc name (connections w) = Some c
             ∨ (loop_running w = true
                ∧ ∃ d, stack_of w name = Some (d ++ [c]))).
Proof.
  intros Hok.
  destruct (resolve_cases (connections w) cn) as [[name Hres] | [Hf Hlen]];
    [|by rewrite get_connection_ambiguous in Hok].
  exists name. split; [done|].
  rewrite (get_connection_current_handle w cn name Hres) in Hok.
  simpl in Hok. unfold current_handle, base_connection in Hok.
  destruct (loop_running w); [destruct (stack_of w name) as [d|] eqn:Hd;
    [destruct (last d) as [h|] eqn:Hl|]|destruct (current_loop w); [|done]].
  - right. split; [done|]. simplify_eq.
    apply last_Some in Hl as [d' ->]. eauto.
  - destruct (assoc name (connections w)); simplify_eq. by left.
  - destruct (assoc name (connections w)); simplify_eq. by left.
  - destruct (assoc name (connections w)); simplify_eq. by left.
Qed.



End ResolutionFacts.

Section CallerFacts.

Context {Conn : Type}.
Variable begin : Conn → M Conn Conn.
Variable commit : Conn → M Conn unit.
Variable rollback : Conn → M Conn unit.
Variable name_of : Conn → string.

(** X15.  [in_transaction] only resolves: it leaves the state as it is,
    fails exactly as [get_connection] fails, and otherwise builds its
    context on the connection [get_connection] returns, which inside an
    open scope of the task is the innermost handle. *)
Theorem in_transaction_wraps_current_handle (w : World Conn)
    (cn : option string) :
  in_transaction cn w
  = (match fst (get_connection cn w) with
     | Ok c => Ok (_in_transaction c)
     | Raise e => Raise e
     end, w)
  ∧ (∀ name d h,
       loop_running w = true →
       resolves_to (connections w) cn name →
       stack_of w name = Some (d ++ [h]) →
       in_transaction cn w = (Ok (_in_transaction h), w)).
Proof.
  assert (Hgen : in_transaction cn w
                 = (match fst (get_connection cn w) with
                    | Ok c => Ok (_in_transaction c)
                    | Raise e => Raise e
                    end, w)).
  { unfold in_transaction, bind.
    pose proof (get_connection_preserves w cn) as Hsnd.
    destruct (get_connection cn w) as [[c|e] w']; simpl in *; by subst. }
  split; [done|].
  intros name d h Hrun Hres Hd. rewrite Hgen.
  rewrite (get_connection_resolved w cn name Hres).
  simpl. by rewrite Hrun, Hd, last_snoc.
Qed.

(** X16.  When the name cannot be resolved, a call of a function
    wrapped by [atomic] fails with the error of [get_connection] before
    anything else happens: no transaction is begun, the wrapped function
    is not run, and the state is the one before the call. *)
Theorem atomic_fails_before_running {Args A : Type}
    (func : Args → M Conn A) (args : Args) (w : World Conn)
    (cn : option string) (e : exn) :
  fst (get_connection cn w) = Raise e →
  atomic begin commit rollback name_of cn func args w = (Raise e, w).
Proof.
  intros Hraise.
  unfold atomic, async_with, in_transaction.
  unfold bind at 1. unfold bind at 1.
  pose proof (get_connection_preserves w cn) as Hsnd.
  destruct (get_connection cn w) as [[c|e'] w']; simpl in *; by simplify_eq.
Qed.

End CallerFacts.

(** ** Further concrete instances *)

Lemma push_transaction_succeeds_iff_witness :
  fst (push_transaction "default" "T" w_default) = Ok tt
  ∧ push_transaction "default" "T" w_idle = (Raise RuntimeError, w_idle)
  ∧ pop_transaction "default" w_idle = (Raise RuntimeError, w_idle).
Proof.
  split.
  - apply (proj2 (proj1 (push_transaction_succeeds_iff w_default "default" "T"))).
    reflexivity.
  - apply (proj2 (push_transaction_succeeds_iff w_idle "default" "T")).
    reflexivity.
Defined.

Lemma pop_transaction_succeeds_iff_witness :
  fst (pop_transaction "default" w_nested) = Ok tt
  ∧ fst (pop_transaction "default" w_stale) = Raise IndexError.
Proof.
  split.
  - apply (proj2 (proj1 (pop_transaction_succeeds_iff w_nested "default"))).
    split; [reflexivity | exists ["T1"], "T2"; reflexivity].
  - apply (proj2 (proj2 (pop_transaction_succeeds_iff w_stale "default")));
      [reflexivity | right; reflexivity].
Defined.

Lemma push_then_pop_restores_witness :
  (let* _ := push_transaction "default" "T" in pop_transaction "default")
    w_nested = (Ok tt, w_nested)
  ∧ (let* _ := push_transaction "default" "T" in pop_transaction "default")
      w_stale = (Ok tt, w_default).
Proof.
  split.
  - apply (proj1 (push_then_pop_restores w_nested "default" "T" eq_refl)).
    discriminate.
  - apply (proj2 (push_then_pop_restores w_stale "default" "T" eq_refl)).
    reflexivity.
Defined.

Lemma run_ops_refines_stack_witness :
  (∃ w', run_ops "default" [Push "T1"; Push "T2"; Pop] w_default = (Ok tt, w')
         ∧ stack_of w' "default" = Some ["T1"]
         ∧ w' = set_map (store (key_of "default" 4242) ["T1"] ∅) w_default)
  ∧ fst (run_ops "default" [Push "T1"; Pop; Pop; Push "T2"] w_default)
    = Raise IndexError.
Proof.
  split.
  - apply (run_ops_refines_stack w_default "default" [Push "T1"; Push "T2"; Pop]);
      [reflexivity | discriminate].
  - apply (run_ops_refines_stack w_default "default"
             [Push "T1"; Pop; Pop; Push "T2"]);
      [reflexivity | discriminate].
Defined.

Lemma nested_scopes_restore_state_witness :
  run_ops "default" nested_scopes w_nested = (Ok tt, w_nested)
  ∧ run_ops "default" nested_scopes w_stale = (Ok tt, w_default).
Proof.
  split.
  - apply (proj1 (nested_scopes_restore_state w_nested "default" nested_scopes
                    eq_refl eq_refl)).
    discriminate.
  - apply (proj2 (nested_scopes_restore_state w_stale "default" nested_scopes
                    eq_refl eq_refl));
      [reflexivity | discriminate].
Defined.

Lemma no_empty_deque_preserved_witness :
  no_empty_deque (snd (push_transaction "default" "T" w_default)).
Proof.
  apply (proj1 (proj2 (no_empty_deque_preserved w_default "default" None "T"
                         ltac:(intros key; simpl; rewrite lookup_empty;
                               discriminate)))).
Defined.

Lemma stale_empty_deque_is_invisible_witness :
  fst (get_connection None w_stale) = fst (get_connection None w_default)
  ∧ fst (get_connection None w_stale) = Ok "C1".
Proof.
  split.
  - apply (proj1 (stale_empty_deque_is_invisible w_stale "default" None
                    ltac:(right; split; reflexivity) eq_refl)).
  - apply (proj2 (stale_empty_deque_is_invisible w_stale "default" None
                    ltac:(right; split; reflexivity) eq_refl)).
    reflexivity.
Defined.

Lemma key_collisions_need_digit_suffix_witness :
  ∃ p, p ≠ "" ∧ all_digits p = true ∧ ("db1" = "db" +:+ p ∨ "db" = "db1" +:+ p).
Proof.
  apply (proj1 (proj2 (key_collisions_need_digit_suffix
                         "db1" "db" 40000000000016 140000000000016 eq_refl))).
  discriminate.
Defined.

Lemma other_task_is_not_affected_witness :
  fst (get_connection (Some "default")
         (switch_task 77
            (snd (run_ops "default" [Push "T1"; Push "T2"; Pop] w_two_tasks))))
  = fst (get_connection (Some "default") (switch_task 77 w_two_tasks)).
Proof.
  apply (other_task_is_not_affected w_two_tasks "default" (Some "default")
           [Push "T1"; Push "T2"; Pop] 77);
    [discriminate | left; split; reflexivity].
Defined.

Lemma other_name_is_not_affected_witness :
  fst (get_connection (Some "other")
         (snd (run_ops "default" [Push "T1"; Push "T2"; Pop] w_two_tasks)))
  = fst (get_connection (Some "other") w_two_tasks).
Proof.
  apply (other_name_is_not_affected w_two_tasks "default" "other" (Some "other")
           [Push "T1"; Push "T2"; Pop]);
    [discriminate | left; split; reflexivity].
Defined.


Lemma get_connection_returns_known_handle_witness :
  ∃ name, resolves_to (connections w_nested) None name
          ∧ (assoc name (connections w_nested) = Some "T2"
             ∨ (loop_running w_nested = true
                ∧ ∃ d, stack_of w_nested name = Some (d ++ ["T2"]))).
Proof.
  apply (get_connection_returns_known_handle w_nested None "T2"). reflexivity.
Defined.


Lemma in_transaction_wraps_current_handle_witness :
  in_transaction None w_nested = (Ok (_in_transaction "T2"), w_nested).
Proof.
  apply (proj2 (in_transaction_wraps_current_handle w_nested None)
           "default" ["T1"] "T2");
    [reflexivity | right; split; reflexivity | reflexivity].
Defined.

Lemma atomic_fails_before_running_witness :
  atomic begin_tx commit_ok rollback_ok name_default None returns_five tt w_ab
  = (Raise (ParamsError ["a"; "b"]), w_ab).
Proof.
  apply (atomic_fails_before_running begin_tx commit_ok rollback_ok name_default
           returns_five tt w_ab None (ParamsError ["a"; "b"])).
  reflexivity.
Defined.
